(** * boost::histogram::detail::static_vector<T, N>

    A shallow embedding of [include/boost/histogram/detail/static_vector.hpp]
    and the verification of its specification.

    - [std::size_t] values are integers of [Z]; the one place where the
      header does arithmetic on them ([size_ - 1] in [back]) wraps modulo
      [2^64].
    - The member array [element_type data_[N]] is a [list T] with [N] slots,
      read with [!!] and written with [<[_:=_]>]; an access outside the array
      is undefined behaviour, an outcome of its own.
    - Member functions that touch one object are functions on
      [static_vector]; [swap] takes two references that may name the same
      object, so it runs on a store of objects.
    - What a call can end in is an [outcome]: a normal return, an exception
      that reaches the caller, [std::terminate], a failed [assert], or
      undefined behaviour.
    - The element type [T] is any type; its [operator==], which
      [operator==] of the vector calls through [std::equal], is a parameter. *)

From stdpp Require Import base option list gmap strings.
From Stdlib Require Import ZArith Lia.
From Stdlib Require Import Floats.SpecFloat.

Local Open Scope Z_scope.

(** ** Outcomes of a call *)

(** The only exception type the header constructs. *)
Inductive exception : Type :=
| out_of_range (what_arg : string).

Inductive outcome (A : Type) : Type :=
| Returns (a : A)              (* the call returns normally *)
| Throws (e : exception)       (* an exception propagates to the caller *)
| Terminates (e : exception)   (* std::terminate is called while e is active *)
| AssertFails                  (* assert(...) aborts the program *)
| Undefined.                   (* undefined behaviour *)

Arguments Returns {A} a.
Arguments Throws {A} e.
Arguments Terminates {A} e.
Arguments AssertFails {A}.
Arguments Undefined {A}.

Definition outcome_bind {A B : Type} (f : A → outcome B) (m : outcome A) : outcome B :=
  match m with
  | Returns a => f a
  | Throws e => Throws e
  | Terminates e => Terminates e
  | AssertFails => AssertFails
  | Undefined => Undefined
  end.

#[global] Instance outcome_mret : MRet outcome := λ A a, Returns a.
#[global] Instance outcome_mbind : MBind outcome := λ A B f m, outcome_bind f m.

(** A function declared [noexcept]: an exception that would leave it ends
    the program through [std::terminate] instead. *)
Definition noexcept_ {A : Type} (m : outcome A) : outcome A :=
  match m with
  | Throws e => Terminates e
  | _ => m
  end.

(** Modelled from the spec: the macro [BOOST_THROW_EXCEPTION] comes from
    [boost/throw_exception.hpp], which is not part of the sources; it throws
    its argument. *)
Definition BOOST_THROW_EXCEPTION {A : Type} (e : exception) : outcome A := Throws e.

(** Reading or writing through a pointer: outside the array it is undefined
    behaviour. *)
Definition access {A : Type} (o : option A) : outcome A :=
  match o with
  | Some a => Returns a
  | None => Undefined
  end.

(** [std::size_t] arithmetic wraps modulo [2^64]. *)
Definition size_t_wrap (z : Z) : Z := z mod 2 ^ 64.

(** Slot [pos] of an array, [pos] a [std::size_t]; none outside the array. *)
Definition slot {A : Type} (d : list A) (pos : Z) : option A :=
  if decide (0 ≤ pos < Z.of_nat (length d)) then d !! Z.to_nat pos else None.

Section static_vector.
(** The template parameters [class T, std::size_t N]. *)
Context {T : Type}.
Variable N : Z.
(** [operator==] of the element type, as [std::equal] calls it. *)
Variable T_eq : T → T → bool.
(** Whether the translation unit is compiled with [NDEBUG], which turns
    [assert] into nothing. *)
Variable NDEBUG : bool.

(** [size_type size_ = 0; element_type data_[N];] *)
Record static_vector : Type := mk_static_vector {
  size_ : Z;
  data_ : list T
}.

(** [assert(c)]: nothing under [NDEBUG], otherwise an abort when [c] is
    false. *)
Definition assert_ (c : bool) : outcome unit :=
  if NDEBUG then Returns () else if c then Returns () else AssertFails.

(** *** Constructors

    The storage of a new object holds whatever default initialisation of
    [T data_[N]] leaves there: [mem], a parameter of every constructor. *)

(** [static_vector() = default;] *)
Definition static_vector_default (mem : list T) : static_vector :=
  {| size_ := 0; data_ := mem |}.

(** [explicit static_vector(std::size_t s) noexcept : size_(s) { assert(size_ <= N); }] *)
Definition static_vector_sized (mem : list T) (s : Z) : outcome static_vector :=
  let this := {| size_ := s; data_ := mem |} in
  noexcept_ (_ ← assert_ (bool_decide (size_ this ≤ N)); Returns this).

(** [max_size], [size], [empty] *)
Definition max_size (this : static_vector) : Z := N.
Definition size (this : static_vector) : Z := size_ this.
Definition empty (this : static_vector) : bool := bool_decide (size_ this = 0).

(** Iterators are pointers into [data_]: offsets from its first slot. *)
Definition begin_ (this : static_vector) : nat := 0%nat.
Definition end_ (this : static_vector) : nat := (begin_ this + Z.to_nat (size_ this))%nat.

(** [std::fill(first, last, value)]: [for (; first != last; ++first) *first = value;]
    with [n] the distance from [first] to [last]. *)
Fixpoint std_fill (d : list T) (first n : nat) (value : T) : outcome (list T) :=
  match n with
  | O => Returns d
  | S n' =>
      if decide (first < length d)%nat
      then std_fill (<[first := value]> d) (S first) n' value
      else Undefined
  end.

(** [void fill(const_reference value) { std::fill(begin(), end(), value); }] *)
Definition fill (this : static_vector) (value : T) : outcome static_vector :=
  d ← std_fill (data_ this) (begin_ this) (end_ this - begin_ this) value;
  Returns {| size_ := size_ this; data_ := d |}.

(** [static_vector(std::size_t s, const T& value) : static_vector(s) { fill(value); }] *)
Definition static_vector_sized_value (mem : list T) (s : Z) (value : T)
  : outcome static_vector :=
  this ← static_vector_sized mem s;
  fill this value.

(** [std::copy(first, last, d_first)] from a list into an array. *)
Fixpoint std_copy (src : list T) (d : list T) (d_first : nat) : outcome (list T) :=
  match src with
  | [] => Returns d
  | x :: src' =>
      if decide (d_first < length d)%nat
      then std_copy src' (<[d_first := x]> d) (S d_first)
      else Undefined
  end.

(** [static_vector(std::initializer_list<T> il) : static_vector(il.size())
    { std::copy(il.begin(), il.end(), data_); }] *)
Definition static_vector_il (mem : list T) (il : list T) : outcome static_vector :=
  this ← static_vector_sized mem (Z.of_nat (length il));
  d ← std_copy il (data_ this) 0;
  Returns {| size_ := size_ this; data_ := d |}.

(** *** Element access *)

(** [reference operator[](size_type pos) noexcept { return data_[pos]; }],
    read through. *)
Definition subscript (this : static_vector) (pos : Z) : outcome T :=
  noexcept_ (access (slot (data_ this) pos)).

(** [a[pos] = x]: a write through the reference [operator[]] returns. *)
Definition subscript_assign (this : static_vector) (pos : Z) (x : T)
  : outcome static_vector :=
  _ ← subscript this pos;
  Returns {| size_ := size_ this; data_ := <[Z.to_nat pos := x]> (data_ this) |}.

(** [reference at(size_type pos) noexcept {
      if (pos >= size()) BOOST_THROW_EXCEPTION(std::out_of_range{"pos is out of range"});
      return data_[pos]; }] *)
Definition at_ (this : static_vector) (pos : Z) : outcome T :=
  noexcept_
    (_ ← (if pos >=? size this
          then BOOST_THROW_EXCEPTION (out_of_range "pos is out of range")
          else Returns ());
     access (slot (data_ this) pos)).

(** [front() { return data_[0]; }] and [back() { return data_[size_ - 1]; }] *)
Definition front (this : static_vector) : outcome T :=
  noexcept_ (access (slot (data_ this) 0)).
Definition back (this : static_vector) : outcome T :=
  noexcept_ (access (slot (data_ this) (size_t_wrap (size_ this - 1)))).

(** *** Equality *)

(** [std::equal(first1, last1, first2, last2)] on random-access iterators:
    different distances give [false]; otherwise the elements are compared
    pairwise in index order. *)
Fixpoint equal_loop (d1 : list T) (first1 : nat) (d2 : list T) (first2 : nat) (n : nat)
  : outcome bool :=
  match n with
  | O => Returns true
  | S n' =>
      x ← access (d1 !! first1);
      y ← access (d2 !! first2);
      if T_eq x y then equal_loop d1 (S first1) d2 (S first2) n' else Returns false
  end.

Definition std_equal (d1 : list T) (first1 last1 : nat) (d2 : list T) (first2 last2 : nat)
  : outcome bool :=
  if decide (last1 - first1 ≠ last2 - first2)%nat then Returns false
  else equal_loop d1 first1 d2 first2 (last1 - first1).

(** [operator==(a, b) { return std::equal(a.begin(), a.end(), b.begin(), b.end()); }] *)
Definition op_eq (a b : static_vector) : outcome bool :=
  noexcept_ (std_equal (data_ a) (begin_ a) (end_ a) (data_ b) (begin_ b) (end_ b)).

(** [operator!=(a, b) { return !(a == b); }] *)
Definition op_ne (a b : static_vector) : outcome bool :=
  noexcept_ (r ← op_eq a b; Returns (negb r)).

(** The class invariant: [size_] is a [std::size_t] within the capacity,
    and the array has its [N] slots. *)
Definition well_formed (v : static_vector) : Prop :=
  0 ≤ size_ v ≤ N ∧ length (data_ v) = Z.to_nat N.

(** *** Objects in memory

    [swap] receives [this] and [other] by reference, and nothing stops a
    caller from passing the same object twice. The objects therefore live
    in a store, indexed by address, and [swap] reads and writes them there
    one access at a time, as the header does. *)

(** [*p] for a pointer to an object. *)
Definition deref (h : gmap nat static_vector) (p : nat) : outcome static_vector :=
  access (h !! p).

(** Read slot [i] of the array of the object at [p]. *)
Definition load_elem (h : gmap nat static_vector) (p : nat) (i : nat) : outcome T :=
  v ← deref h p;
  access (data_ v !! i).

(** Write [x] to slot [i] of the array of the object at [p]. *)
Definition store_elem (h : gmap nat static_vector) (p : nat) (i : nat) (x : T)
  : outcome (gmap nat static_vector) :=
  v ← deref h p;
  if decide (i < length (data_ v))%nat
  then Returns (<[p := {| size_ := size_ v; data_ := <[i := x]> (data_ v) |}]> h)
  else Undefined.

Definition load_size (h : gmap nat static_vector) (p : nat) : outcome Z :=
  v ← deref h p;
  Returns (size_ v).

Definition store_size (h : gmap nat static_vector) (p : nat) (s : Z)
  : outcome (gmap nat static_vector) :=
  v ← deref h p;
  Returns (<[p := {| size_ := s; data_ := data_ v |}]> h).

(** [std::swap] of the elements [*i] and [*j] on two elements:
    [T tmp = std::move(a); a = std::move(b); b = std::move(tmp);] *)
Definition swap_elem (h : gmap nat static_vector) (p : nat) (i : nat) (q : nat) (j : nat)
  : outcome (gmap nat static_vector) :=
  tmp ← load_elem h p i;
  y ← load_elem h q j;
  h1 ← store_elem h p i y;
  store_elem h1 q j tmp.

(** [std::swap(size_, other.size_)] *)
Definition swap_size (h : gmap nat static_vector) (p q : nat)
  : outcome (gmap nat static_vector) :=
  tmp ← load_size h p;
  y ← load_size h q;
  h1 ← store_size h p y;
  store_size h1 q tmp.

(** [for (auto i = begin(), j = other.begin(), end = begin() + s; i != end; ++i, ++j)
      swap( *i, *j);] with [n] the distance from [i] to [end]. *)
Fixpoint swap_loop (n : nat) (h : gmap nat static_vector) (p : nat) (i : nat) (q : nat) (j : nat)
  : outcome (gmap nat static_vector) :=
  match n with
  | O => Returns h
  | S n' =>
      h' ← swap_elem h p i q j;
      swap_loop n' h' p (S i) q (S j)
  end.

(** [void swap(static_vector& other) {
      const size_type s = (std::max)(size(), other.size());
      for (...) swap( *i, *j);
      swap(size_, other.size_); }] *)
Definition swap (h : gmap nat static_vector) (this other : nat)
  : outcome (gmap nat static_vector) :=
  a ← deref h this;
  b ← deref h other;
  let s := Z.max (size a) (size b) in
  h1 ← swap_loop (Z.to_nat s) h this (begin_ a) other (begin_ b);
  swap_size h1 this other.

(** [std::swap(a, b) { a.swap(b); }] *)
Definition std_swap (h : gmap nat static_vector) (a b : nat)
  : outcome (gmap nat static_vector) :=
  swap h a b.

(** What the loop of [swap] leaves in an array [d]: the slots in
    [lo, hi) come from the other array, the rest are those of [d]. *)
Definition exchanged (lo hi : nat) (d d_other d' : list T) : Prop :=
  length d' = length d
  ∧ ∀ k : nat, d' !! k = if decide (lo ≤ k < hi)%nat then d_other !! k else d !! k.

(** *** Programs over the store

    The ways the header offers to create and to change an object, each
    run on the object at an address. *)
Inductive command : Type :=
| Construct (p : nat) (mem : list T)
| ConstructSized (p : nat) (mem : list T) (s : Z)
| ConstructSizedValue (p : nat) (mem : list T) (s : Z) (value : T)
| ConstructList (p : nat) (mem : list T) (il : list T)
| CallFill (p : nat) (value : T)
| CallSwap (p q : nat)
| Assign (p : nat) (pos : Z) (x : T).

Definition exec (h : gmap nat static_vector) (c : command)
  : outcome (gmap nat static_vector) :=
  match c with
  | Construct p mem => Returns (<[p := static_vector_default mem]> h)
  | ConstructSized p mem s =>
      v ← static_vector_sized mem s; Returns (<[p := v]> h)
  | ConstructSizedValue p mem s value =>
      v ← static_vector_sized_value mem s value; Returns (<[p := v]> h)
  | ConstructList p mem il =>
      v ← static_vector_il mem il; Returns (<[p := v]> h)
  | CallFill p value =>
      v ← deref h p; v' ← fill v value; Returns (<[p := v']> h)
  | CallSwap p q => swap h p q
  | Assign p pos x =>
      v ← deref h p; v' ← subscript_assign v pos x; Returns (<[p := v']> h)
  end.

(** A construction is valid when the storage has the [N] slots of
    [data_[N]] and the requested size is a [std::size_t] within the
    capacity. *)
Definition valid (c : command) : Prop :=
  match c with
  | Construct p mem => length mem = Z.to_nat N
  | ConstructSized p mem s => length mem = Z.to_nat N ∧ 0 ≤ s ≤ N
  | ConstructSizedValue p mem s value => length mem = Z.to_nat N ∧ 0 ≤ s ≤ N
  | ConstructList p mem il => length mem = Z.to_nat N ∧ Z.of_nat (length il) ≤ N
  | CallFill _ _ | CallSwap _ _ | Assign _ _ _ => True
  end.

(** The stores a program can reach from no objects at all: every step is
    a valid construction or a later operation that returns. *)
Inductive reachable : gmap nat static_vector → Prop :=
| reachable_empty : reachable ∅
| reachable_step h c h' :
    reachable h → valid c → exec h c = Returns h' → reachable h'.

(** A program: its commands run one after the other, as long as each
    returns. *)
Fixpoint run (cs : list command) (h : gmap nat static_vector)
  : outcome (gmap nat static_vector) :=
  match cs with
  | [] => Returns h
  | c :: cs' => h' ← exec h c; run cs' h'
  end.

End static_vector.

Arguments static_vector T : clear implicits.

(** ** Concrete vectors

    [static_vector<int, 4>]: the elements are integers, their [==] is
    [Z.eqb]. The storage a constructor finds is arbitrary. *)

Definition raw_storage : list Z := [-7; 42; 0; 13].

Definition vec123 : static_vector Z := {| size_ := 3; data_ := [1; 2; 3; 13] |}.
Definition vec123' : static_vector Z := {| size_ := 3; data_ := [1; 2; 3; 99] |}.
Definition vec56 : static_vector Z := {| size_ := 2; data_ := [5; 6; 0; 13] |}.

Definition two_objects : gmap nat (static_vector Z) :=
  <[2%nat := vec56]> {[1%nat := vec123]}.

(** The scenario of the specification as a program: the first vector at
    address 1, the second at address 2. *)
Definition scenario_program : list (@command Z) :=
  [ ConstructList 1 raw_storage [1; 2; 3];
    CallFill 1 9;
    ConstructList 2 raw_storage [5; 6];
    CallSwap 1 2 ].

Definition scenario_store : gmap nat (static_vector Z) :=
  <[2%nat := {| size_ := 3; data_ := [9; 9; 9; 13] |}]>
    {[1%nat := {| size_ := 2; data_ := [5; 6; 0; 13] |}]}.

(** [static_vector<double, 1>] holding a NaN: the elements are IEEE 754
    binary floats, their [==] is [SFeqb]. *)
Definition nan_vector : static_vector spec_float :=
  {| size_ := 1; data_ := [S754_nan] |}.

(** ** Verification *)

Section verification.
Context {T : Type}.
Variable N : Z.
Variable T_eq : T → T → bool.
Variable NDEBUG : bool.

Implicit Types (a b v this : static_vector T) (d mem il : list T).
Implicit Types (h : gmap nat (static_vector T)).

(** *** The monad *)

Lemma bind_Returns {A B : Type} (m : outcome A) (f : A → outcome B) (r : B) :
  m ≫= f = Returns r ↔ ∃ x, m = Returns x ∧ f x = Returns r.
Proof.
  split.
  - destruct m; try discriminate. intros Hf. eauto.
  - intros (x & -> & Hf). exact Hf.
Qed.

Lemma noexcept_Returns {A : Type} (m : outcome A) (r : A) :
  noexcept_ m = Returns r ↔ m = Returns r.
Proof. destruct m; split; intros H; try discriminate H; exact H. Qed.

Lemma noexcept_never_throws {A : Type} (m : outcome A) (e : exception) :
  noexcept_ m ≠ Throws e.
Proof. destruct m; discriminate. Qed.

Lemma slot_lookup d (i : Z) : 0 ≤ i → slot d i = d !! Z.to_nat i.
Proof.
  intros Hi. unfold slot. case_decide as Hin; [done |].
  symmetry. apply lookup_ge_None. lia.
Qed.

Lemma slot_is_Some d (i : Z) :
  0 ≤ i < Z.of_nat (length d) → is_Some (slot d i).
Proof.
  intros Hi. rewrite slot_lookup by lia. apply lookup_lt_is_Some_2. lia.
Qed.

(** *** The loops of the standard algorithms *)

Lemma std_fill_spec n : ∀ d (first : nat) (x : T),
  (first + n ≤ length d)%nat →
  ∃ d', std_fill d first n x = Returns d'
      ∧ length d' = length d
      ∧ ∀ k : nat, d' !! k = if decide (first ≤ k < first + n)%nat then Some x else d !! k.
Proof.
  induction n as [|n IH]; intros d first x Hlen; simpl.
  - exists d. repeat split. intros k. case_decide; [lia | done].
  - rewrite decide_True by lia.
    destruct (IH (<[first := x]> d) (S first) x) as (d' & Hrun & Hl & Hk).
    { rewrite length_insert. lia. }
    exists d'. split; [exact Hrun |]. split; [by rewrite Hl, length_insert |].
    intros k. rewrite Hk.
    destruct (decide (k = first)) as [-> | Hne].
    + rewrite decide_False by lia. rewrite decide_True by lia.
      apply list_lookup_insert_eq. lia.
    + rewrite list_lookup_insert_ne by done.
      repeat case_decide; (done || lia).
Qed.

Lemma std_copy_spec il : ∀ d (d_first : nat),
  (d_first + length il ≤ length d)%nat →
  ∃ d', std_copy il d d_first = Returns d'
      ∧ length d' = length d
      ∧ ∀ k : nat, d' !! k = if decide (d_first ≤ k < d_first + length il)%nat
                            then il !! (k - d_first)%nat else d !! k.
Proof.
  induction il as [|x il IH]; intros d d_first Hlen; simpl in *.
  - exists d. repeat split. intros k. case_decide; [lia | done].
  - rewrite decide_True by lia.
    destruct (IH (<[d_first := x]> d) (S d_first)) as (d' & Hrun & Hl & Hk).
    { rewrite length_insert. lia. }
    exists d'. split; [exact Hrun |]. split; [by rewrite Hl, length_insert |].
    intros k. rewrite Hk.
    destruct (decide (k = d_first)) as [-> | Hne].
    + rewrite decide_False by lia. rewrite decide_True by lia.
      rewrite Nat.sub_diag. simpl. apply list_lookup_insert_eq. lia.
    + rewrite list_lookup_insert_ne by done.
      repeat case_decide; try (done || lia).
      replace (k - d_first)%nat with (S (k - S d_first)) by lia. done.
Qed.

(** *** Checked and unchecked access *)

Lemma subscript_Returns v (pos : Z) (x : T) :
  subscript v pos = Returns x ↔ slot (data_ v) pos = Some x.
Proof.
  unfold subscript. rewrite noexcept_Returns.
  destruct (slot (data_ v) pos); simpl; split; congruence.
Qed.

Lemma subscript_in_range v (pos : Z) :
  0 ≤ pos < Z.of_nat (length (data_ v)) →
  ∃ x, subscript v pos = Returns x ∧ data_ v !! Z.to_nat pos = Some x.
Proof.
  intros Hpos. destruct (slot_is_Some (data_ v) pos Hpos) as [x Hx].
  exists x. split; [by apply subscript_Returns |].
  by rewrite <- slot_lookup by lia.
Qed.

(** Below [size()], [at] returns what [operator[]] returns. *)
Lemma at_in_range v (pos : Z) :
  pos < size v → at_ v pos = subscript v pos.
Proof.
  intros Hpos. unfold at_, subscript.
  destruct (Z.geb_spec pos (size v)) as [Hge | _]; [lia | done].
Qed.

(** From [size()] on, the exception [at] throws cannot leave the
    [noexcept] function: the call ends in [std::terminate]. *)
Lemma at_out_of_range v (pos : Z) :
  size v ≤ pos → at_ v pos = Terminates (out_of_range "pos is out of range").
Proof.
  intros Hpos. unfold at_.
  destruct (Z.geb_spec pos (size v)) as [_ | Hlt]; [done | lia].
Qed.

(** No call of [at] reports an exception to its caller. *)
Lemma at_never_throws v (pos : Z) (e : exception) : at_ v pos ≠ Throws e.
Proof. apply noexcept_never_throws. Qed.

(** *** Construction *)

Lemma static_vector_sized_valid mem (s : Z) :
  s ≤ N →
  static_vector_sized N NDEBUG mem s = Returns {| size_ := s; data_ := mem |}.
Proof.
  intros Hs. unfold static_vector_sized, assert_. simpl.
  destruct NDEBUG; [done |]. by rewrite bool_decide_eq_true_2.
Qed.

Lemma static_vector_sized_Returns mem (s : Z) v :
  static_vector_sized N NDEBUG mem s = Returns v → v = {| size_ := s; data_ := mem |}.
Proof.
  unfold static_vector_sized, assert_. simpl.
  destruct NDEBUG; simpl; [congruence |].
  case_bool_decide; simpl; congruence.
Qed.

(** [fill] returns; it writes [value] to the slots
    below [size()] and to no other, and keeps the size. *)
Lemma fill_spec v (value : T) :
  well_formed N v →
  ∃ d', fill v value = Returns {| size_ := size_ v; data_ := d' |}
      ∧ length d' = length (data_ v)
      ∧ ∀ k : nat, d' !! k = if decide (k < Z.to_nat (size_ v))%nat
                            then Some value else data_ v !! k.
Proof.
  intros [Hsz Hlen]. unfold fill, end_, begin_.
  destruct (std_fill_spec (0 + Z.to_nat (size_ v) - 0) (data_ v) 0 value)
    as (d' & Hrun & Hl & Hk); [lia |].
  exists d'. rewrite Hrun. split; [done |]. split; [done |].
  intros k. rewrite Hk. repeat case_decide; (done || lia).
Qed.

(** C6: after [fill(v)] every element below [size()] equals [v], [size()]
    is what it was, and an empty vector is left as it is. *)
Theorem fill_correct this (value : T) :
  well_formed N this →
  ∃ this', fill this value = Returns this'
    ∧ size this' = size this
    ∧ (∀ i : Z, 0 ≤ i < size this' → subscript this' i = Returns value)
    ∧ (size this = 0 → this' = this).
Proof.
  intros Hwf. destruct (fill_spec this value Hwf) as (d' & Hrun & Hl & Hk).
  destruct Hwf as [Hsz Hlen].
  eexists. split; [exact Hrun |]. unfold size. simpl.
  split; [done |]. split.
  - intros i Hi. apply subscript_Returns. simpl.
    rewrite slot_lookup by lia. rewrite Hk. rewrite decide_True by lia. done.
  - intros H0. destruct this as [sz d]. simpl in *. f_equal.
    apply list_eq. intros k. rewrite Hk. rewrite decide_False by lia. done.
Qed.

(** The constructor from a list returns an object of the size of the
    list, with the list in its first slots and the storage as it was in
    the others. *)
Lemma static_vector_il_spec mem il :
  length mem = Z.to_nat N →
  Z.of_nat (length il) ≤ N →
  ∃ d', static_vector_il N NDEBUG mem il
        = Returns {| size_ := Z.of_nat (length il); data_ := d' |}
      ∧ length d' = length mem
      ∧ ∀ k : nat, d' !! k = if decide (k < length il)%nat then il !! k else mem !! k.
Proof.
  intros Hmem Hk. unfold static_vector_il.
  rewrite static_vector_sized_valid by done. simpl.
  destruct (std_copy_spec il mem 0) as (d' & Hrun & Hl & Hlook); [lia |].
  rewrite Hrun. simpl. exists d'. split; [done |]. split; [done |].
  intros k. rewrite Hlook, Nat.sub_0_r. repeat case_decide; (done || lia).
Qed.

(** C7: a vector built from a list of [k ≤ N] elements has size [k] and
    holds the [i]-th element of the list at index [i]. *)
Theorem construct_from_list mem il :
  length mem = Z.to_nat N →
  Z.of_nat (length il) ≤ N →
  ∃ this, static_vector_il N NDEBUG mem il = Returns this
    ∧ size this = Z.of_nat (length il)
    ∧ ∀ i : Z, 0 ≤ i < Z.of_nat (length il) →
        ∃ x, il !! Z.to_nat i = Some x ∧ subscript this i = Returns x.
Proof.
  intros Hmem Hk.
  destruct (static_vector_il_spec mem il Hmem Hk) as (d' & Hrun & Hl & Hlook).
  eexists. split; [exact Hrun |]. unfold size. simpl.
  split; [done |]. intros i Hi.
  destruct (lookup_lt_is_Some_2 il (Z.to_nat i)) as [x Hx]; [lia |].
  exists x. split; [done |]. apply subscript_Returns. simpl.
  rewrite slot_lookup by lia. rewrite Hlook. by rewrite decide_True by lia.
Qed.

(** *** Equality *)

Lemma equal_loop_spec n : ∀ d1 (first1 : nat) d2 (first2 : nat),
  (first1 + n ≤ length d1)%nat →
  (first2 + n ≤ length d2)%nat →
  ∃ r, equal_loop T_eq d1 first1 d2 first2 n = Returns r
     ∧ (r = true ↔ ∀ k : nat, (k < n)%nat →
          ∃ x y, d1 !! (first1 + k)%nat = Some x
               ∧ d2 !! (first2 + k)%nat = Some y
               ∧ T_eq x y = true).
Proof.
  induction n as [|n IH]; intros d1 first1 d2 first2 H1 H2; simpl.
  - exists true. split; [done |]. split; [intros _ k Hk; lia | done].
  - destruct (lookup_lt_is_Some_2 d1 first1) as [x Hx]; [lia |].
    destruct (lookup_lt_is_Some_2 d2 first2) as [y Hy]; [lia |].
    rewrite Hx, Hy. simpl. destruct (T_eq x y) eqn:Hxy.
    + destruct (IH d1 (S first1) d2 (S first2)) as (r & Hrun & Hr); [lia | lia |].
      exists r. split; [exact Hrun |]. rewrite Hr. split.
      * intros Hall [|k] Hk.
        -- rewrite !Nat.add_0_r. eauto.
        -- rewrite <- !Nat.add_succ_comm. apply Hall. lia.
      * intros Hall k Hk. rewrite !Nat.add_succ_comm. apply Hall. lia.
    + exists false. split; [done |]. split; [done |].
      intros Hall. destruct (Hall 0%nat) as (x' & y' & Hx' & Hy' & Heq); [lia |].
      rewrite Nat.add_0_r in Hx', Hy'. congruence.
Qed.

(** The loop reads no slot outside the compared range. *)
Lemma equal_loop_ext n : ∀ d1 d1' (first1 : nat) d2 (first2 : nat),
  (∀ k : nat, (k < n)%nat → d1 !! (first1 + k)%nat = d1' !! (first1 + k)%nat) →
  equal_loop T_eq d1 first1 d2 first2 n = equal_loop T_eq d1' first1 d2 first2 n.
Proof.
  induction n as [|n IH]; intros d1 d1' first1 d2 first2 Hagree; simpl; [done |].
  pose proof (Hagree 0%nat ltac:(lia)) as H0.
  rewrite Nat.add_0_r in H0. rewrite <- H0.
  destruct (d1 !! first1) as [x|]; simpl; [| done].
  destruct (d2 !! first2) as [y|]; simpl; [| done].
  destruct (T_eq x y); [| done].
  apply IH. intros k Hk. rewrite !Nat.add_succ_comm. apply Hagree. lia.
Qed.

Lemma op_eq_unfold a b :
  op_eq T_eq a b =
  noexcept_
    (if decide (Z.to_nat (size_ a) ≠ Z.to_nat (size_ b)) then Returns false
     else equal_loop T_eq (data_ a) 0 (data_ b) 0 (Z.to_nat (size_ a))).
Proof.
  unfold op_eq, std_equal, end_, begin_. simpl. rewrite !Nat.sub_0_r. done.
Qed.

(** [a == b] returns, and returns [true] exactly when the sizes agree and
    the elements below the size compare equal index by index. *)
Lemma op_eq_spec a b :
  well_formed N a → well_formed N b →
  ∃ r, op_eq T_eq a b = Returns r
     ∧ (r = true ↔
          size a = size b
          ∧ ∀ i : Z, 0 ≤ i < size a →
              ∃ x y, subscript a i = Returns x ∧ subscript b i = Returns y
                   ∧ T_eq x y = true).
Proof.
  intros [Ha Hla] [Hb Hlb]. rewrite op_eq_unfold. unfold size.
  case_decide as Hsz; simpl.
  - exists false. split; [done |]. split; [done |]. intros [Heq _]. lia.
  - destruct (equal_loop_spec (Z.to_nat (size_ a)) (data_ a) 0 (data_ b) 0)
      as (r & Hrun & Hr); [lia | lia |].
    exists r. rewrite Hrun. split; [done |]. rewrite Hr. split.
    + intros Hall. split; [lia |]. intros i Hi.
      destruct (Hall (Z.to_nat i)) as (x & y & Hx & Hy & Hxy); [lia |].
      exists x, y. rewrite !subscript_Returns, !slot_lookup by lia. done.
    + intros [_ Hall] k Hk.
      destruct (Hall (Z.of_nat k)) as (x & y & Hx & Hy & Hxy); [lia |].
      rewrite subscript_Returns, slot_lookup, Nat2Z.id in Hx, Hy by lia.
      exists x, y. done.
Qed.

Lemma op_ne_negates a b (r : bool) :
  op_eq T_eq a b = Returns r → op_ne T_eq a b = Returns (negb r).
Proof. intros Hr. unfold op_ne. by rewrite Hr. Qed.

(** C4, as the code has it: [a == b] holds iff the sizes are equal and
    the elements below the size compare equal pairwise; [a != b] is its
    negation; [==] is reflexive when the element type's [==] is, and
    symmetric when the element type's [==] is. *)
Theorem equality_semantics a b :
  well_formed N a → well_formed N b →
  ∃ r, op_eq T_eq a b = Returns r
     ∧ (r = true ↔
          size a = size b
          ∧ ∀ i : Z, 0 ≤ i < size a →
              ∃ x y, subscript a i = Returns x ∧ subscript b i = Returns y
                   ∧ T_eq x y = true)
     ∧ op_ne T_eq a b = Returns (negb r)
     ∧ ((∀ x : T, T_eq x x = true) → op_eq T_eq a a = Returns true)
     ∧ ((∀ x y : T, T_eq x y = T_eq y x) → op_eq T_eq b a = Returns r).
Proof.
  intros Hwa Hwb.
  destruct (op_eq_spec a b Hwa Hwb) as (r & Hrun & Hr).
  exists r. split; [exact Hrun |]. split; [exact Hr |].
  split; [by apply op_ne_negates |]. split.
  - intros Hrefl. destruct (op_eq_spec a a Hwa Hwa) as (r' & Hrun' & Hr').
    rewrite Hrun'. f_equal. apply Hr'. split; [done |]. intros i Hi.
    destruct (subscript_in_range a i) as (x & Hx & _).
    { destruct Hwa as [? ->]. unfold size in Hi. lia. }
    exists x, x. auto.
  - intros Hsym. destruct (op_eq_spec b a Hwb Hwa) as (r' & Hrun' & Hr').
    rewrite Hrun'. f_equal.
    apply eq_true_iff_eq. unfold is_true in *. rewrite Hr, Hr'. split.
    + intros [Hsz Hall]. split; [done |]. intros i Hi.
      destruct (Hall i) as (x & y & Hx & Hy & Hxy); [lia |].
      exists y, x. rewrite Hsym. done.
    + intros [Hsz Hall]. split; [done |]. intros i Hi.
      destruct (Hall i) as (x & y & Hx & Hy & Hxy); [lia |].
      exists y, x. rewrite Hsym. done.
Qed.

(** C10: [a == b] reads the size of [a] and its slots below the size and
    nothing else of [a]: two vectors that agree there compare alike with
    every [b], whatever their slots from the size on hold. *)
Theorem equality_ignores_dead_slots a a' b :
  size a = size a' →
  (∀ i : Z, 0 ≤ i < size a → subscript a i = subscript a' i) →
  op_eq T_eq a b = op_eq T_eq a' b.
Proof.
  unfold size. intros Hsz Hlive. rewrite !op_eq_unfold, <- Hsz.
  case_decide; [done |]. f_equal. apply equal_loop_ext.
  intros k Hk. simpl.
  specialize (Hlive (Z.of_nat k)). unfold subscript in Hlive.
  rewrite !slot_lookup, Nat2Z.id in Hlive by lia.
  destruct (data_ a !! k), (data_ a' !! k); simpl in Hlive;
    try (specialize (Hlive ltac:(lia))); congruence.
Qed.

(** *** Swap *)

Lemma static_vector_eta v : {| size_ := size_ v; data_ := data_ v |} = v.
Proof. by destruct v. Qed.

(** Swapping an element with itself changes nothing. *)
Lemma swap_elem_same h (p : nat) a (i : nat) :
  h !! p = Some a → (i < length (data_ a))%nat →
  swap_elem h p i p i = Returns h.
Proof.
  intros Hp Hi. destruct (lookup_lt_is_Some_2 (data_ a) i Hi) as [x Hx].
  assert (<[p := {| size_ := size_ a; data_ := <[i := x]> (data_ a) |}]> h = h) as Hid.
  { apply insert_id. by rewrite list_insert_id, static_vector_eta. }
  unfold swap_elem, load_elem, store_elem, deref.
  rewrite Hp. simpl. rewrite Hx. simpl. rewrite decide_True by done.
  rewrite Hid. simpl. rewrite Hp. simpl. rewrite decide_True by done.
  by rewrite Hid.
Qed.

Lemma swap_loop_same n : ∀ h (p : nat) a (i : nat),
  h !! p = Some a → (i + n ≤ length (data_ a))%nat →
  swap_loop n h p i p i = Returns h.
Proof.
  induction n as [|n IH]; intros h p a i Hp Hlen; simpl; [done |].
  rewrite (swap_elem_same h p a i) by (done || lia). simpl.
  apply (IH h p a). { done. } lia.
Qed.

Lemma swap_size_same h (p : nat) a : h !! p = Some a → swap_size h p p = Returns h.
Proof.
  intros Hp.
  assert (<[p := {| size_ := size_ a; data_ := data_ a |}]> h = h) as Hid.
  { apply insert_id. by rewrite static_vector_eta. }
  unfold swap_size, load_size, store_size, deref. rewrite Hp. simpl.
  rewrite Hid. simpl. rewrite Hp. simpl. by rewrite Hid.
Qed.

(** [a.swap(a)] leaves the store as it is. *)
Lemma swap_same h (p : nat) a :
  h !! p = Some a → well_formed N a → swap h p p = Returns h.
Proof.
  intros Hp [Hsz Hlen]. unfold swap, deref. rewrite Hp. simpl.
  rewrite (swap_loop_same _ h p a) by (done || unfold size, begin_; lia). simpl.
  by apply swap_size_same with a.
Qed.

Lemma swap_elem_distinct h (p q : nat) a b (i j : nat) :
  p ≠ q → h !! p = Some a → h !! q = Some b →
  (i < length (data_ a))%nat → (j < length (data_ b))%nat →
  ∃ x y, data_ a !! i = Some x ∧ data_ b !! j = Some y
       ∧ swap_elem h p i q j =
         Returns (<[q := {| size_ := size_ b; data_ := <[j := x]> (data_ b) |}]>
                  (<[p := {| size_ := size_ a; data_ := <[i := y]> (data_ a) |}]> h)).
Proof.
  intros Hpq Hp Hq Hi Hj.
  destruct (lookup_lt_is_Some_2 (data_ a) i Hi) as [x Hx].
  destruct (lookup_lt_is_Some_2 (data_ b) j Hj) as [y Hy].
  exists x, y. split; [done |]. split; [done |].
  unfold swap_elem, load_elem, store_elem, deref.
  rewrite Hp. simpl. rewrite Hx. simpl. rewrite Hq. simpl. rewrite Hy. simpl.
  rewrite decide_True by done. simpl.
  rewrite lookup_insert_ne by done. rewrite Hq. simpl.
  by rewrite decide_True by done.
Qed.

Lemma swap_loop_distinct n : ∀ h (p q : nat) a b (i : nat),
  p ≠ q → h !! p = Some a → h !! q = Some b →
  (i + n ≤ length (data_ a))%nat → (i + n ≤ length (data_ b))%nat →
  ∃ da db,
    swap_loop n h p i q i =
    Returns (<[q := {| size_ := size_ b; data_ := db |}]>
             (<[p := {| size_ := size_ a; data_ := da |}]> h))
    ∧ exchanged i (i + n) (data_ a) (data_ b) da
    ∧ exchanged i (i + n) (data_ b) (data_ a) db.
Proof.
  induction n as [|n IH]; intros h p q a b i Hpq Hp Hq Ha Hb; simpl.
  - exists (data_ a), (data_ b). split.
    + rewrite !static_vector_eta. rewrite (insert_id h p a) by done.
      by rewrite insert_id.
    + split; (split; [done |]); intros k; case_decide; (done || lia).
  - destruct (swap_elem_distinct h p q a b i i) as (x & y & Hx & Hy & Hstep);
      [done | done | done | lia | lia |].
    rewrite Hstep. simpl.
    set (a1 := {| size_ := size_ a; data_ := <[i := y]> (data_ a) |}) in *.
    set (b1 := {| size_ := size_ b; data_ := <[i := x]> (data_ b) |}) in *.
    destruct (IH (<[q := b1]> (<[p := a1]> h)) p q a1 b1 (S i))
      as (da & db & Hrun & [Hla Hda] & [Hlb Hdb]).
    { done. }
    { rewrite lookup_insert_ne by done. apply lookup_insert_eq. }
    { apply lookup_insert_eq. }
    { subst a1. simpl. rewrite length_insert. lia. }
    { subst b1. simpl. rewrite length_insert. lia. }
    exists da, db. split; [| split].
    + rewrite Hrun. f_equal. subst a1 b1. simpl.
      apply map_eq. intros r.
      destruct (decide (r = q)) as [-> | Hrq]; [by rewrite !lookup_insert_eq |].
      rewrite (lookup_insert_ne _ q r) by done.
      rewrite (lookup_insert_ne _ q r) by done.
      destruct (decide (r = p)) as [-> | Hrp]; [by rewrite !lookup_insert_eq |].
      rewrite !lookup_insert_ne by done. done.
    + subst a1 b1. simpl in *. split; [by rewrite Hla, length_insert |].
      intros k. rewrite Hda.
      destruct (decide (k = i)) as [-> | Hki].
      * rewrite decide_False by lia. rewrite decide_True by lia.
        rewrite list_lookup_insert_eq by lia. done.
      * rewrite !list_lookup_insert_ne by done.
        repeat case_decide; (done || lia).
    + subst a1 b1. simpl in *. split; [by rewrite Hlb, length_insert |].
      intros k. rewrite Hdb.
      destruct (decide (k = i)) as [-> | Hki].
      * rewrite decide_False by lia. rewrite decide_True by lia.
        rewrite list_lookup_insert_eq by lia. done.
      * rewrite !list_lookup_insert_ne by done.
        repeat case_decide; (done || lia).
Qed.

Lemma swap_size_distinct h (p q : nat) a b :
  p ≠ q → h !! p = Some a → h !! q = Some b →
  swap_size h p q =
  Returns (<[q := {| size_ := size_ a; data_ := data_ b |}]>
           (<[p := {| size_ := size_ b; data_ := data_ a |}]> h)).
Proof.
  intros Hpq Hp Hq. unfold swap_size, load_size, store_size, deref.
  rewrite Hp. simpl. rewrite Hq. simpl.
  rewrite lookup_insert_ne by done. by rewrite Hq.
Qed.

(** What [a.swap(b)] does to the store, for the same object and for two
    objects alike: it returns; the slots below the larger of the two sizes
    are exchanged between the arrays and no other slot changes; the sizes
    are exchanged; every other object stays as it is. *)
Lemma swap_spec h (p q : nat) a b :
  h !! p = Some a → h !! q = Some b →
  well_formed N a → well_formed N b →
  ∃ h' a' b',
    swap h p q = Returns h'
    ∧ h' !! p = Some a' ∧ h' !! q = Some b'
    ∧ size_ a' = size_ b ∧ size_ b' = size_ a
    ∧ exchanged 0 (Z.to_nat (Z.max (size_ a) (size_ b))) (data_ a) (data_ b) (data_ a')
    ∧ exchanged 0 (Z.to_nat (Z.max (size_ a) (size_ b))) (data_ b) (data_ a) (data_ b')
    ∧ ∀ r : nat, r ≠ p → r ≠ q → h' !! r = h !! r.
Proof.
  intros Hp Hq Hwa Hwb. destruct (decide (p = q)) as [<- | Hpq].
  - assert (b = a) as -> by congruence.
    exists h, a, a. split; [by apply swap_same with a |].
    repeat split; try done; intros k; by case_decide.
  - destruct Hwa as [Hsa Hla], Hwb as [Hsb Hlb].
    destruct (swap_loop_distinct (Z.to_nat (Z.max (size_ a) (size_ b))) h p q a b 0)
      as (da & db & Hloop & Hda & Hdb); [done | done | done | lia | lia |].
    simpl in Hda, Hdb.
    set (a1 := {| size_ := size_ a; data_ := da |}) in *.
    set (b1 := {| size_ := size_ b; data_ := db |}) in *.
    set (h1 := <[q := b1]> (<[p := a1]> h)) in *.
    assert (h1 !! p = Some a1) as Hp1.
    { subst h1. rewrite lookup_insert_ne by done. apply lookup_insert_eq. }
    assert (h1 !! q = Some b1) as Hq1 by apply lookup_insert_eq.
    eexists _, {| size_ := size_ b; data_ := da |}, {| size_ := size_ a; data_ := db |}.
    split.
    { unfold swap, deref. rewrite Hp. simpl. rewrite Hq. simpl.
      unfold size, begin_. fold h1 in Hloop. rewrite Hloop. simpl.
      apply (swap_size_distinct h1 p q a1 b1); done. }
    subst a1 b1. simpl.
    split; [rewrite lookup_insert_ne by done; apply lookup_insert_eq |].
    split; [apply lookup_insert_eq |].
    repeat split; try (apply Hda || apply Hdb).
    intros r Hrp Hrq. subst h1. rewrite !lookup_insert_ne by done. done.
Qed.

Lemma slot_exchanged (hi : nat) d d_other d' (i : Z) :
  exchanged 0 hi d d_other d' → 0 ≤ i →
  slot d' i = if decide (i < Z.of_nat hi) then slot d_other i else slot d i.
Proof.
  intros [_ Hk] Hi. rewrite !slot_lookup by done. rewrite Hk.
  repeat case_decide; (done || lia).
Qed.

Lemma subscript_slot v v' (i : Z) :
  slot (data_ v') i = slot (data_ v) i → subscript v' i = subscript v i.
Proof. unfold subscript. by intros ->. Qed.

Lemma swap_preserves_well_formed a b a' b' :
  well_formed N a → well_formed N b →
  size_ a' = size_ b → size_ b' = size_ a →
  length (data_ a') = length (data_ a) → length (data_ b') = length (data_ b) →
  well_formed N a' ∧ well_formed N b'.
Proof. unfold well_formed. intros [? ?] [? ?] -> -> -> ->. done. Qed.

(** C2: [a.swap(b)] returns, and afterwards [a.size()] is the size [b]
    had and [b.size()] is the size [a] had. *)
Theorem swap_size_exchange h (pa pb : nat) a b :
  h !! pa = Some a → h !! pb = Some b →
  well_formed N a → well_formed N b →
  ∃ h' a' b',
    swap h pa pb = Returns h'
    ∧ h' !! pa = Some a' ∧ h' !! pb = Some b'
    ∧ size a' = size b ∧ size b' = size a.
Proof.
  intros Hpa Hpb Hwa Hwb.
  destruct (swap_spec h pa pb a b Hpa Hpb Hwa Hwb)
    as (h' & a' & b' & Hrun & Hpa' & Hpb' & Hsa & Hsb & _).
  exists h', a', b'. done.
Qed.

(** C1: [a.swap(b)] returns; afterwards every element of [a] below its
    new size is the element [b] held at that index, and the other way
    round; the slots below the larger of the two old sizes are exchanged
    pairwise, the slots from there on are untouched, and the two sizes are
    exchanged. *)
Theorem swap_content_exchange h (pa pb : nat) a b :
  h !! pa = Some a → h !! pb = Some b →
  well_formed N a → well_formed N b →
  ∃ h' a' b',
    swap h pa pb = Returns h'
    ∧ h' !! pa = Some a' ∧ h' !! pb = Some b'
    ∧ (∀ i : Z, 0 ≤ i < size a' →
         ∃ x, subscript a' i = Returns x ∧ subscript b i = Returns x)
    ∧ (∀ i : Z, 0 ≤ i < size b' →
         ∃ x, subscript b' i = Returns x ∧ subscript a i = Returns x)
    ∧ (∀ i : Z, 0 ≤ i < Z.max (size a) (size b) →
         ∃ x y, subscript a i = Returns x ∧ subscript b i = Returns y
              ∧ subscript a' i = Returns y ∧ subscript b' i = Returns x)
    ∧ (∀ i : Z, Z.max (size a) (size b) ≤ i →
         subscript a' i = subscript a i ∧ subscript b' i = subscript b i)
    ∧ size a' = size b ∧ size b' = size a.
Proof.
  intros Hpa Hpb Hwa Hwb.
  destruct (swap_spec h pa pb a b Hpa Hpb Hwa Hwb)
    as (h' & a' & b' & Hrun & Hpa' & Hpb' & Hsa & Hsb & Hda & Hdb & _).
  exists h', a', b'. unfold size. rewrite Hsa, Hsb.
  destruct Hwa as [Hsza Hla], Hwb as [Hszb Hlb].
  assert (∀ i : Z, 0 ≤ i < Z.max (size_ a) (size_ b) →
            ∃ x y, subscript a i = Returns x ∧ subscript b i = Returns y
                 ∧ subscript a' i = Returns y ∧ subscript b' i = Returns x) as Hunion.
  { intros i Hi.
    destruct (subscript_in_range a i) as (x & Hx & _); [lia |].
    destruct (subscript_in_range b i) as (y & Hy & _); [lia |].
    exists x, y. split; [done |]. split; [done |].
    rewrite <- Hx, <- Hy. split; apply subscript_slot.
    - rewrite (slot_exchanged _ _ _ _ i Hda) by lia. by rewrite decide_True by lia.
    - rewrite (slot_exchanged _ _ _ _ i Hdb) by lia. by rewrite decide_True by lia. }
  repeat split; try done.
  - intros i Hi. destruct (Hunion i) as (x & y & Hx & Hy & Hx' & Hy'); [lia |].
    exists y. done.
  - intros i Hi. destruct (Hunion i) as (x & y & Hx & Hy & Hx' & Hy'); [lia |].
    exists x. done.
  - apply subscript_slot.
    rewrite (slot_exchanged _ _ _ _ i Hda) by lia. by rewrite decide_False by lia.
  - apply subscript_slot.
    rewrite (slot_exchanged _ _ _ _ i Hdb) by lia. by rewrite decide_False by lia.
Qed.

(** C9: [a.swap(b)] twice in a row returns both times and leaves the
    store as it was before the first call: [a] and [b] have their
    original sizes and their original slots, those below the larger size
    among them. *)
Theorem swap_involution h (pa pb : nat) a b :
  h !! pa = Some a → h !! pb = Some b →
  well_formed N a → well_formed N b →
  ∃ h1 h2,
    swap h pa pb = Returns h1
    ∧ swap h1 pa pb = Returns h2
    ∧ h2 !! pa = Some a ∧ h2 !! pb = Some b
    ∧ h2 = h.
Proof.
  intros Hpa Hpb Hwa Hwb.
  destruct (swap_spec h pa pb a b Hpa Hpb Hwa Hwb)
    as (h1 & a1 & b1 & Hrun1 & Hpa1 & Hpb1 & Hsa1 & Hsb1 & Hda1 & Hdb1 & Hrest1).
  destruct (swap_preserves_well_formed a b a1 b1) as [Hwa1 Hwb1];
    [done | done | done | done | apply Hda1 | apply Hdb1 |].
  destruct (swap_spec h1 pa pb a1 b1 Hpa1 Hpb1 Hwa1 Hwb1)
    as (h2 & a2 & b2 & Hrun2 & Hpa2 & Hpb2 & Hsa2 & Hsb2 & Hda2 & Hdb2 & Hrest2).
  rewrite Hsa1, Hsb1, (Z.max_comm (size_ b) (size_ a)) in Hda2, Hdb2.
  destruct Hda1 as [Hla1 Hka1], Hdb1 as [Hlb1 Hkb1].
  destruct Hda2 as [Hla2 Hka2], Hdb2 as [Hlb2 Hkb2].
  assert (a2 = a) as ->.
  { destruct a2 as [s2 d2], a as [s d]. simpl in *. f_equal; [congruence |].
    apply list_eq. intros k. rewrite Hka2, Hka1, Hkb1. by repeat case_decide. }
  assert (b2 = b) as ->.
  { destruct b2 as [s2 d2], b as [s d]. simpl in *. f_equal; [congruence |].
    apply list_eq. intros k. rewrite Hkb2, Hka1, Hkb1. by repeat case_decide. }
  exists h1, h2. repeat split; try done.
  apply map_eq. intros r.
  destruct (decide (r = pa)) as [-> | Hra]; [congruence |].
  destruct (decide (r = pb)) as [-> | Hrb]; [congruence |].
  rewrite Hrest2, Hrest1 by done. done.
Qed.

(** *** The capacity invariant *)

Lemma deref_Returns h (p : nat) v : deref h p = Returns v ↔ h !! p = Some v.
Proof. unfold deref. destruct (h !! p); simpl; split; congruence. Qed.

Lemma fill_preserves_well_formed v (value : T) v' :
  well_formed N v → fill v value = Returns v' → well_formed N v'.
Proof.
  intros Hwf Hrun. destruct (fill_spec v value Hwf) as (d' & Hrun' & Hl & _).
  rewrite Hrun' in Hrun. injection Hrun as <-.
  destruct Hwf as [Hsz Hlen]. split; simpl; [done | congruence].
Qed.

Lemma subscript_assign_preserves_well_formed v (pos : Z) (x : T) v' :
  well_formed N v → subscript_assign v pos x = Returns v' → well_formed N v'.
Proof.
  intros [Hsz Hlen] Hrun. unfold subscript_assign in Hrun.
  apply bind_Returns in Hrun as (_ & _ & [= <-]).
  split; simpl; [done |]. by rewrite length_insert.
Qed.

(** Every valid construction returns an object. *)
Lemma valid_construction_returns h (c : command) :
  valid N c →
  match c with
  | CallFill _ _ | CallSwap _ _ | Assign _ _ _ => True
  | _ => ∃ h', exec N NDEBUG h c = Returns h'
  end.
Proof.
  destruct c as [p mem | p mem s | p mem s value | p mem il | | |]; simpl; try done.
  - eauto.
  - intros [Hmem Hs]. rewrite static_vector_sized_valid by lia. simpl. eauto.
  - intros [Hmem Hs]. unfold static_vector_sized_value.
    rewrite static_vector_sized_valid by lia. simpl.
    destruct (fill_spec {| size_ := s; data_ := mem |} value) as (d' & -> & _);
      [by split |].
    simpl. eauto.
  - intros [Hmem Hk].
    destruct (static_vector_il_spec mem il Hmem Hk) as (d' & -> & _). simpl. eauto.
Qed.

(** Every step of a program keeps the class invariant of every object. *)
Lemma exec_preserves_well_formed h (c : command) h' :
  0 ≤ N →
  map_Forall (λ _ v, well_formed N v) h →
  valid N c →
  exec N NDEBUG h c = Returns h' →
  map_Forall (λ _ v, well_formed N v) h'.
Proof.
  intros HN Hinv Hvalid Hrun.
  destruct c as [p mem | p mem s | p mem s value | p mem il | p value | p q | p pos x];
    simpl in Hvalid, Hrun.
  - injection Hrun as <-. apply map_Forall_insert_2; [| done].
    split; simpl; [lia | done].
  - destruct Hvalid as [Hmem Hs].
    apply bind_Returns in Hrun as (v & Hv & [= <-]).
    apply static_vector_sized_Returns in Hv as ->.
    apply map_Forall_insert_2; [| done]. by split.
  - destruct Hvalid as [Hmem Hs].
    apply bind_Returns in Hrun as (v & Hv & [= <-]).
    unfold static_vector_sized_value in Hv.
    apply bind_Returns in Hv as (v0 & Hv0 & Hfill).
    apply static_vector_sized_Returns in Hv0 as ->.
    apply map_Forall_insert_2; [| done].
    apply (fill_preserves_well_formed {| size_ := s; data_ := mem |} value);
      [by split | done].
  - destruct Hvalid as [Hmem Hk].
    apply bind_Returns in Hrun as (v & Hv & [= <-]).
    destruct (static_vector_il_spec mem il Hmem Hk) as (d' & Hv' & Hl & _).
    rewrite Hv' in Hv. injection Hv as <-.
    apply map_Forall_insert_2; [| done].
    split; simpl; [lia | congruence].
  - apply bind_Returns in Hrun as (v & Hv & Hrun).
    apply bind_Returns in Hrun as (v' & Hfill & [= <-]).
    apply deref_Returns in Hv.
    apply map_Forall_insert_2; [| done].
    apply (fill_preserves_well_formed v value); [| done].
    by apply (Hinv p).
  - assert (∃ a b, h !! p = Some a ∧ h !! q = Some b) as (a & b & Hp & Hq).
    { unfold swap in Hrun.
      apply bind_Returns in Hrun as (a & Ha & Hrun).
      apply bind_Returns in Hrun as (b & Hb & _).
      exists a, b. by rewrite <- !deref_Returns. }
    destruct (swap_spec h p q a b Hp Hq (Hinv p a Hp) (Hinv q b Hq))
      as (h'' & a' & b' & Hrun' & Hp' & Hq' & Hsa & Hsb & Hda & Hdb & Hrest).
    rewrite Hrun' in Hrun. injection Hrun as <-.
    destruct (swap_preserves_well_formed a b a' b') as [Hwa' Hwb'];
      [by apply (Hinv p) | by apply (Hinv q) | done | done
      | apply Hda | apply Hdb |].
    intros r v Hr.
    destruct (decide (r = p)) as [-> | Hrp]; [congruence |].
    destruct (decide (r = q)) as [-> | Hrq]; [congruence |].
    rewrite Hrest in Hr by done. by apply (Hinv r).
  - apply bind_Returns in Hrun as (v & Hv & Hrun).
    apply bind_Returns in Hrun as (v' & Hassign & [= <-]).
    apply deref_Returns in Hv.
    apply map_Forall_insert_2; [| done].
    apply (subscript_assign_preserves_well_formed v pos x); [| done].
    by apply (Hinv p).
Qed.

Lemma reachable_well_formed h :
  0 ≤ N → reachable N NDEBUG h → map_Forall (λ _ v, well_formed N v) h.
Proof.
  intros HN Hreach. induction Hreach as [| h c h' _ IH Hvalid Hrun].
  - apply map_Forall_empty.
  - by apply (exec_preserves_well_formed h c h').
Qed.

(** C5: every object of a program that creates its vectors by valid
    constructions and then fills, swaps and writes them has
    [size() <= max_size()], and [max_size()] is [N]. *)
Theorem capacity_invariant h (p : nat) this :
  0 ≤ N →
  reachable N NDEBUG h →
  h !! p = Some this →
  size this ≤ max_size N this ∧ max_size N this = N.
Proof.
  intros HN Hreach Hp.
  destruct (reachable_well_formed h HN Hreach p this Hp) as [Hsz _].
  unfold size, max_size. lia.
Qed.

Lemma run_reachable (cs : list command) : ∀ h h',
  reachable N NDEBUG h →
  Forall (valid N) cs →
  run N NDEBUG cs h = Returns h' →
  reachable N NDEBUG h'.
Proof.
  induction cs as [|c cs IH]; intros h h' Hreach Hvalid Hrun; simpl in Hrun.
  - by injection Hrun as <-.
  - apply bind_Returns in Hrun as (h1 & Hstep & Hrun).
    inversion Hvalid as [| ? ? Hc Hcs]; subst.
    apply (IH h1 h'); [| done | done].
    by apply (reachable_step N NDEBUG h c h1).
Qed.

(** *** Further properties of access and construction *)

(** X1: [at(pos)] returns an element only for a position below [size()], and
    then the element [operator[]] returns there. *)
Theorem at_returns_live_element v (pos : Z) (x : T) :
  at_ v pos = Returns x ↔ pos < size v ∧ subscript v pos = Returns x.
Proof.
  destruct (Z.lt_ge_cases pos (size v)) as [Hlt | Hge].
  - rewrite at_in_range by done. split; [by intros -> | by intros [_ ->]].
  - rewrite at_out_of_range by done. split; [discriminate | lia].
Qed.

Lemma std_fill_overflow n : ∀ d (first : nat) (x : T),
  (first ≤ length d < first + n)%nat → std_fill d first n x = Undefined.
Proof.
  induction n as [|n IH]; intros d first x Hlen; simpl; [lia |].
  case_decide; [| done]. apply IH. rewrite length_insert. lia.
Qed.

Lemma std_copy_overflow il : ∀ d (d_first : nat),
  (d_first ≤ length d < d_first + length il)%nat → std_copy il d d_first = Undefined.
Proof.
  induction il as [|x il IH]; intros d d_first Hlen; simpl in *; [lia |].
  case_decide; [| done]. apply IH. rewrite length_insert. lia.
Qed.

(** X2: The constructor from a size and a value returns, for a size within the
    capacity, a vector of that size whose elements below the size are the
    value; the slots from the size on still hold what the storage held. *)
Theorem sized_value_constructor mem (s : Z) (value : T) :
  length mem = Z.to_nat N →
  0 ≤ s ≤ N →
  ∃ this, static_vector_sized_value N NDEBUG mem s value = Returns this
    ∧ size this = s
    ∧ (∀ i : Z, 0 ≤ i < s → subscript this i = Returns value)
    ∧ (∀ i : Z, s ≤ i → slot (data_ this) i = slot mem i).
Proof.
  intros Hmem Hs. unfold static_vector_sized_value.
  rewrite static_vector_sized_valid by lia. simpl.
  destruct (fill_spec {| size_ := s; data_ := mem |} value) as (d' & Hrun & Hl & Hk);
    [by split |].
  simpl in *. eexists. split; [exact Hrun |]. unfold size. simpl.
  split; [done |]. split.
  - intros i Hi. apply subscript_Returns. simpl.
    rewrite slot_lookup, Hk by lia. by rewrite decide_True by lia.
  - intros i Hi. rewrite !slot_lookup, Hk by lia. by rewrite decide_False by lia.
Qed.

(** X3: With [assert] active, every constructor that is given a size above the
    capacity aborts: none of them returns an object. *)
Theorem oversized_construction_aborts mem (s : Z) (value : T) il :
  N < s →
  Z.of_nat (length il) = s →
  static_vector_sized N false mem s = AssertFails
  ∧ static_vector_sized_value N false mem s value = AssertFails
  ∧ static_vector_il N false mem il = AssertFails.
Proof.
  intros Hs Hil.
  assert (static_vector_sized N false mem s = AssertFails) as Hsized.
  { unfold static_vector_sized, assert_. simpl.
    by rewrite bool_decide_eq_false_2 by lia. }
  split; [done |]. split.
  - unfold static_vector_sized_value. by rewrite Hsized.
  - unfold static_vector_il. by rewrite Hil, Hsized.
Qed.

(** X4: Under [NDEBUG] nothing checks the size: above the capacity the sized
    constructor returns an object that breaks the class invariant, and the
    constructors that go on to write the elements run off the end of the
    array, which is undefined behaviour. *)
Theorem oversized_construction_unchecked mem (s : Z) (value : T) il :
  length mem = Z.to_nat N →
  0 ≤ N < s →
  Z.of_nat (length il) = s →
  (∃ this, static_vector_sized N true mem s = Returns this
         ∧ size this = s ∧ ¬ well_formed N this)
  ∧ static_vector_sized_value N true mem s value = Undefined
  ∧ static_vector_il N true mem il = Undefined.
Proof.
  intros Hmem Hs Hil. split; [| split].
  - eexists. split; [reflexivity |]. split; [done |].
    intros [Hsz _]. simpl in Hsz. lia.
  - unfold static_vector_sized_value, static_vector_sized, assert_, fill, end_, begin_.
    simpl. rewrite std_fill_overflow; [done | lia].
  - unfold static_vector_il, static_vector_sized, assert_. simpl.
    rewrite std_copy_overflow; [done | lia].
Qed.

(** X5: A write through [operator[]] inside the array returns; the slot then
    reads back the written value, every other slot reads as before, and the
    size is unchanged. *)
Theorem subscript_assign_read v (pos : Z) (x : T) :
  0 ≤ pos < Z.of_nat (length (data_ v)) →
  ∃ v', subscript_assign v pos x = Returns v'
    ∧ size v' = size v
    ∧ subscript v' pos = Returns x
    ∧ ∀ pos' : Z, pos' ≠ pos → subscript v' pos' = subscript v pos'.
Proof.
  intros Hpos. unfold subscript_assign.
  destruct (subscript_in_range v pos Hpos) as (y & -> & _). simpl.
  eexists. split; [done |]. split; [done |]. split.
  - apply subscript_Returns. simpl. rewrite slot_lookup by lia.
    apply list_lookup_insert_eq. lia.
  - intros pos' Hne. apply subscript_slot. simpl. unfold slot.
    rewrite length_insert. case_decide; [| done].
    apply list_lookup_insert_ne. lia.
Qed.

(** X6: For a vector built from a non-empty list, [front()] is the first item
    of the list and [back()] the last, and they are what [at(0)] and
    [at(size() - 1)] return. *)
Theorem front_back_of_list mem il (x y : T) :
  length mem = Z.to_nat N →
  N < 2 ^ 64 →
  Z.of_nat (length il) ≤ N →
  head il = Some x →
  last il = Some y →
  ∃ this, static_vector_il N NDEBUG mem il = Returns this
    ∧ front this = Returns x ∧ at_ this 0 = Returns x
    ∧ back this = Returns y ∧ at_ this (size this - 1) = Returns y.
Proof.
  intros Hmem HN Hk Hhead Hlast.
  destruct (static_vector_il_spec mem il Hmem Hk) as (d' & Hrun & Hl & Hlook).
  assert (0 < length il)%nat as Hpos.
  { destruct il; [discriminate | simpl; lia]. }
  eexists. split; [exact Hrun |].
  assert (slot d' 0 = Some x) as H0.
  { rewrite slot_lookup, Hlook by lia. rewrite decide_True by (simpl; lia).
    by rewrite <- head_lookup. }
  assert (slot d' (Z.of_nat (length il) - 1) = Some y) as H1.
  { rewrite slot_lookup, Hlook by lia. rewrite decide_True by lia.
    rewrite last_lookup in Hlast.
    by replace (Z.to_nat (Z.of_nat (length il) - 1)) with (pred (length il)) by lia. }
  assert (size_t_wrap (Z.of_nat (length il) - 1) = Z.of_nat (length il) - 1) as Hwrap.
  { unfold size_t_wrap. apply Z.mod_small. lia. }
  split; [| split; [| split]].
  - unfold front. simpl. by rewrite H0.
  - rewrite at_in_range by (unfold size; simpl; lia).
    apply subscript_Returns. done.
  - unfold back. simpl. by rewrite Hwrap, H1.
  - unfold size. simpl. rewrite at_in_range by (unfold size; simpl; lia).
    apply subscript_Returns. done.
Qed.

(** X7: [back()] on an empty vector is undefined behaviour: [size_ - 1] wraps
    around to the largest [std::size_t], a position no array has. *)
Theorem back_of_empty_undefined v :
  size v = 0 →
  Z.of_nat (length (data_ v)) < 2 ^ 64 →
  back v = Undefined.
Proof.
  unfold size, back. intros -> Hlen.
  change (size_t_wrap (0 - 1)) with (2 ^ 64 - 1).
  unfold slot. by rewrite decide_False by lia.
Qed.

(** *** Further properties of equality, fill and swap *)

Lemma equal_loop_ext_r n : ∀ d1 (first1 : nat) d2 d2' (first2 : nat),
  (∀ k : nat, (k < n)%nat → d2 !! (first2 + k)%nat = d2' !! (first2 + k)%nat) →
  equal_loop T_eq d1 first1 d2 first2 n = equal_loop T_eq d1 first1 d2' first2 n.
Proof.
  induction n as [|n IH]; intros d1 first1 d2 d2' first2 Hagree; simpl; [done |].
  pose proof (Hagree 0%nat ltac:(lia)) as H0.
  rewrite Nat.add_0_r in H0. rewrite <- H0.
  destruct (d1 !! first1) as [x|]; simpl; [| done].
  destruct (d2 !! first2) as [y|]; simpl; [| done].
  destruct (T_eq x y); [| done].
  apply IH. intros k Hk. rewrite !Nat.add_succ_comm. apply Hagree. lia.
Qed.

(** [==] sees of each argument its size and its slots below the size. *)
Lemma op_eq_ext a a' b :
  size_ a = size_ a' →
  (∀ k : nat, (k < Z.to_nat (size_ a))%nat → data_ a !! k = data_ a' !! k) →
  op_eq T_eq a b = op_eq T_eq a' b ∧ op_eq T_eq b a = op_eq T_eq b a'.
Proof.
  intros Hsz Hlive. rewrite !op_eq_unfold, <- Hsz. split.
  - case_decide; [done |]. f_equal. by apply equal_loop_ext.
  - case_decide as Hne; [done |]. f_equal. apply equal_loop_ext_r.
    intros k Hk. apply Hlive. simpl. lia.
Qed.

(** X8: Two empty vectors compare equal whatever their storage holds and
    whatever the [==] of the element type does: no element is compared. *)
Theorem empty_vectors_equal a b :
  empty a = true → empty b = true →
  op_eq T_eq a b = Returns true ∧ op_ne T_eq a b = Returns false.
Proof.
  unfold empty. intros Ha%bool_decide_eq_true Hb%bool_decide_eq_true.
  assert (op_eq T_eq a b = Returns true) as Heq.
  { rewrite op_eq_unfold, Ha, Hb. simpl. done. }
  split; [done |]. by rewrite (op_ne_negates a b true).
Qed.

(** X9: Vectors of different sizes compare unequal, and no element is read to
    find that out: the storage of neither matters. *)
Theorem different_sizes_unequal a b :
  0 ≤ size a → 0 ≤ size b → size a ≠ size b →
  op_eq T_eq a b = Returns false ∧ op_ne T_eq a b = Returns true.
Proof.
  unfold size. intros Ha Hb Hne.
  assert (op_eq T_eq a b = Returns false) as Heq.
  { rewrite op_eq_unfold. rewrite decide_True by lia. done. }
  split; [done |]. by rewrite (op_ne_negates a b false).
Qed.

(** X10: A write through [operator[]] to a slot from [size()] on changes the
    result of no comparison, on either side of [==]. *)
Theorem dead_write_keeps_equality a (pos : Z) (x : T) a' b :
  size a ≤ pos →
  subscript_assign a pos x = Returns a' →
  op_eq T_eq a' b = op_eq T_eq a b ∧ op_eq T_eq b a' = op_eq T_eq b a.
Proof.
  unfold size. intros Hpos Hrun. unfold subscript_assign in Hrun.
  apply bind_Returns in Hrun as (_ & _ & [= <-]).
  apply op_eq_ext; simpl; [done |].
  intros k Hk. apply list_lookup_insert_ne. lia.
Qed.

(** X11: A write through [operator[]] below [size()] of a value that differs
    from the element of [b] at that position makes the vector unequal to
    [b]. *)
Theorem live_write_breaks_equality a b (pos : Z) (x y : T) :
  well_formed N a → well_formed N b →
  0 ≤ pos < size a →
  subscript b pos = Returns y →
  T_eq x y = false →
  ∃ a', subscript_assign a pos x = Returns a'
      ∧ op_eq T_eq a' b = Returns false
      ∧ op_ne T_eq a' b = Returns true.
Proof.
  intros Hwa Hwb Hpos Hy Hxy.
  assert (0 ≤ pos < Z.of_nat (length (data_ a))) as Hin.
  { destruct Hwa as [? ->]. unfold size in Hpos. lia. }
  unfold subscript_assign.
  destruct (subscript_in_range a pos Hin) as (x0 & -> & _). simpl.
  set (a' := {| size_ := size_ a; data_ := <[Z.to_nat pos := x]> (data_ a) |}).
  assert (well_formed N a') as Hwa'.
  { destruct Hwa as [? ?]. split; simpl; [done |]. by rewrite length_insert. }
  destruct (op_eq_spec a' b Hwa' Hwb) as (r & Hrun & Hr).
  assert (r = false) as ->.
  { destruct r; [| done]. destruct Hr as [Hr _].
    destruct (Hr eq_refl) as [_ Hall].
    destruct (Hall pos Hpos) as (x' & y' & Hx' & Hy' & Heq).
    apply subscript_Returns in Hx'. simpl in Hx'.
    rewrite slot_lookup, list_lookup_insert_eq in Hx' by lia.
    congruence. }
  exists a'. split; [done |]. split; [done |]. by rewrite (op_ne_negates a' b false).
Qed.

(** X12: Two vectors built from lists compare equal exactly when the lists have
    the same length and their items compare equal pairwise; the storage
    they were built in does not matter. *)
Theorem list_constructor_equality mem1 mem2 il1 il2 :
  length mem1 = Z.to_nat N → length mem2 = Z.to_nat N →
  Z.of_nat (length il1) ≤ N → Z.of_nat (length il2) ≤ N →
  ∃ a b r,
    static_vector_il N NDEBUG mem1 il1 = Returns a
    ∧ static_vector_il N NDEBUG mem2 il2 = Returns b
    ∧ op_eq T_eq a b = Returns r
    ∧ (r = true ↔ Forall2 (λ x y, T_eq x y = true) il1 il2).
Proof.
  intros Hm1 Hm2 Hk1 Hk2.
  destruct (static_vector_il_spec mem1 il1 Hm1 Hk1) as (d1 & Hrun1 & Hl1 & Hlook1).
  destruct (static_vector_il_spec mem2 il2 Hm2 Hk2) as (d2 & Hrun2 & Hl2 & Hlook2).
  exists {| size_ := Z.of_nat (length il1); data_ := d1 |}.
  exists {| size_ := Z.of_nat (length il2); data_ := d2 |}.
  rewrite Hrun1, Hrun2, op_eq_unfold. simpl. rewrite !Nat2Z.id.
  case_decide as Hlen.
  - exists false. repeat split; try done.
    intros HF. apply Forall2_length in HF. done.
  - destruct (equal_loop_spec (length il1) d1 0 d2 0) as (r & Hrun & Hr); [lia | lia |].
    exists r. rewrite Hrun. repeat split; try done.
    + intros Hrt. apply Forall2_same_length_lookup. split; [lia |].
      intros i x y Hx Hy.
      destruct (proj1 Hr Hrt i) as (x' & y' & Hx' & Hy' & Heq).
      { by apply lookup_lt_Some in Hx. }
      simpl in Hx', Hy'. rewrite Hlook1 in Hx'. rewrite Hlook2 in Hy'.
      apply lookup_lt_Some in Hx as Hi1. apply lookup_lt_Some in Hy as Hi2.
      rewrite decide_True in Hx' by done. rewrite decide_True in Hy' by done.
      congruence.
    + intros HF. apply Hr. intros k Hk. simpl.
      destruct (lookup_lt_is_Some_2 il1 k Hk) as [x Hx].
      destruct (lookup_lt_is_Some_2 il2 k) as [y Hy]; [lia |].
      exists x, y. rewrite Hlook1, Hlook2. rewrite !decide_True by lia.
      split; [done |]. split; [done |].
      exact (Forall2_lookup_lr _ il1 il2 k x y HF Hx Hy).
Qed.

(** X13: A second [fill] overwrites the first: filling with [x] and then with
    [y] leaves the vector that filling with [y] alone leaves. *)
Theorem fill_overwrites v (x y : T) :
  well_formed N v →
  ∃ v1 v2, fill v x = Returns v1 ∧ fill v1 y = Returns v2 ∧ fill v y = Returns v2.
Proof.
  intros Hwf.
  destruct (fill_spec v x Hwf) as (d1 & Hrun1 & Hl1 & Hk1).
  assert (well_formed N {| size_ := size_ v; data_ := d1 |}) as Hwf1.
  { destruct Hwf as [? ?]. split; simpl; [done | congruence]. }
  destruct (fill_spec _ y Hwf1) as (d2 & Hrun2 & Hl2 & Hk2).
  destruct (fill_spec v y Hwf) as (d3 & Hrun3 & Hl3 & Hk3).
  simpl in *. eexists _, _. split; [exact Hrun1 |]. split; [exact Hrun2 |].
  rewrite Hrun3. do 2 f_equal. apply list_eq. intros k.
  rewrite Hk3, Hk2, Hk1. by repeat case_decide.
Qed.

Lemma exchanged_unique (lo hi : nat) d d_other d1 d2 :
  exchanged lo hi d d_other d1 → exchanged lo hi d d_other d2 → d1 = d2.
Proof.
  intros [_ H1] [_ H2]. apply list_eq. intros k. by rewrite H1, H2.
Qed.

(** X14: [a.swap(a)], and [std::swap(a, a)] with it, changes nothing. *)
Theorem self_swap_is_noop h (p : nat) a :
  h !! p = Some a → well_formed N a →
  swap h p p = Returns h ∧ std_swap h p p = Returns h.
Proof.
  intros Hp Hwf. unfold std_swap. split; by apply swap_same with a.
Qed.

(** X15: [std::swap(a, b)] and [std::swap(b, a)] leave the same store. *)
Theorem swap_commutes h (p q : nat) a b :
  h !! p = Some a → h !! q = Some b →
  well_formed N a → well_formed N b →
  std_swap h p q = std_swap h q p.
Proof.
  intros Hp Hq Hwa Hwb. unfold std_swap.
  destruct (decide (p = q)) as [-> | Hpq]; [done |].
  destruct (swap_spec h p q a b Hp Hq Hwa Hwb)
    as (h1 & a1 & b1 & -> & Hp1 & Hq1 & Hsa1 & Hsb1 & Hda1 & Hdb1 & Hrest1).
  destruct (swap_spec h q p b a Hq Hp Hwb Hwa)
    as (h2 & b2 & a2 & -> & Hq2 & Hp2 & Hsb2 & Hsa2 & Hdb2 & Hda2 & Hrest2).
  rewrite (Z.max_comm (size_ b) (size_ a)) in Hdb2, Hda2.
  f_equal. apply map_eq. intros r.
  destruct (decide (r = p)) as [-> | Hrp].
  { rewrite Hp1, Hp2. f_equal. destruct a1, a2. simpl in *. f_equal; [congruence |].
    by apply (exchanged_unique _ _ _ _ _ _ Hda1 Hda2). }
  destruct (decide (r = q)) as [-> | Hrq].
  { rewrite Hq1, Hq2. f_equal. destruct b1, b2. simpl in *. f_equal; [congruence |].
    by apply (exchanged_unique _ _ _ _ _ _ Hdb1 Hdb2). }
  rewrite Hrest1, Hrest2 by done. done.
Qed.

(** X16: After [a.swap(b)], [a] compares with every vector as [b] did before,
    and [b] as [a] did, on either side of [==]. *)
Theorem swap_exchanges_equality h (pa pb : nat) a b :
  h !! pa = Some a → h !! pb = Some b →
  well_formed N a → well_formed N b →
  ∃ h' a' b',
    swap h pa pb = Returns h'
    ∧ h' !! pa = Some a' ∧ h' !! pb = Some b'
    ∧ ∀ c, op_eq T_eq a' c = op_eq T_eq b c ∧ op_eq T_eq c a' = op_eq T_eq c b
         ∧ op_eq T_eq b' c = op_eq T_eq a c ∧ op_eq T_eq c b' = op_eq T_eq c a.
Proof.
  intros Hpa Hpb Hwa Hwb.
  destruct (swap_spec h pa pb a b Hpa Hpb Hwa Hwb)
    as (h' & a' & b' & Hrun & Hpa' & Hpb' & Hsa & Hsb & [_ Hda] & [_ Hdb] & _).
  exists h', a', b'. split; [done |]. split; [done |]. split; [done |].
  destruct Hwa as [Hsza _], Hwb as [Hszb _]. intros c.
  destruct (op_eq_ext a' b c) as [H1 H2].
  { done. }
  { intros k Hk. rewrite Hda. rewrite decide_True by lia. done. }
  destruct (op_eq_ext b' a c) as [H3 H4].
  { done. }
  { intros k Hk. rewrite Hdb. rewrite decide_True by lia. done. }
  done.
Qed.

End verification.

(** ** The specification on concrete vectors *)

(** C3: [at(3)] on [static_vector<int, 4>{1, 2, 3}]. The function is
    declared [noexcept], so the [std::out_of_range] it throws for
    [pos >= size()] never reaches the caller: the call ends in
    [std::terminate], whatever the build and whatever the storage held. *)
Theorem at_failing_input (NDEBUG : bool) (m0 m1 m2 m3 : Z) :
  ∃ this,
    static_vector_il 4 NDEBUG [m0; m1; m2; m3] [1; 2; 3] = Returns this
    ∧ size this = 3
    ∧ at_ this 3 = Terminates (out_of_range "pos is out of range")
    ∧ (∀ e, at_ this 3 ≠ Throws e)
    ∧ at_ this 2 = subscript this 2.
Proof.
  exists {| size_ := 3; data_ := [1; 2; 3; m3] |}.
  split; [by destruct NDEBUG |].
  split; [done |]. split; [done |]. split; [| done].
  intros e. apply noexcept_never_throws.
Qed.

(** C8: the scenario with capacity 4. Everything is as the specification
    says, except that [at(3)] ends in [std::terminate] instead of reporting
    [std::out_of_range] to the caller. *)
Theorem scenario (NDEBUG : bool) (m0 m1 m2 m3 n0 n1 n2 n3 : Z) :
  ∃ first filled second h first' second' expect56 expect999,
    static_vector_il 4 NDEBUG [m0; m1; m2; m3] [1; 2; 3] = Returns first
    ∧ size first = 3
    ∧ front first = Returns 1
    ∧ back first = Returns 3
    ∧ at_ first 3 = Terminates (out_of_range "pos is out of range")
    ∧ fill first 9 = Returns filled
    ∧ static_vector_il 4 NDEBUG [0; 0; 0; 0] [9; 9; 9] = Returns expect999
    ∧ op_eq Z.eqb filled expect999 = Returns true
    ∧ static_vector_il 4 NDEBUG [n0; n1; n2; n3] [5; 6] = Returns second
    ∧ swap (<[2%nat := second]> {[1%nat := filled]}) 1 2 = Returns h
    ∧ h !! 1%nat = Some first' ∧ h !! 2%nat = Some second'
    ∧ static_vector_il 4 NDEBUG [0; 0; 0; 0] [5; 6] = Returns expect56
    ∧ op_eq Z.eqb first' expect56 = Returns true ∧ size first' = 2
    ∧ op_eq Z.eqb second' expect999 = Returns true ∧ size second' = 3.
Proof.
  exists {| size_ := 3; data_ := [1; 2; 3; m3] |}.
  exists {| size_ := 3; data_ := [9; 9; 9; m3] |}.
  exists {| size_ := 2; data_ := [5; 6; n2; n3] |}.
  exists (<[2%nat := {| size_ := 3; data_ := [9; 9; 9; n3] |}]>
            {[1%nat := {| size_ := 2; data_ := [5; 6; n2; m3] |}]}).
  exists {| size_ := 2; data_ := [5; 6; n2; m3] |}.
  exists {| size_ := 3; data_ := [9; 9; 9; n3] |}.
  exists {| size_ := 2; data_ := [5; 6; 0; 0] |}.
  exists {| size_ := 3; data_ := [9; 9; 9; 0] |}.
  destruct NDEBUG; repeat split; reflexivity.
Qed.

(** C4, where the claim fails: a [static_vector<double, 1>] that holds a
    NaN is built by a valid construction and does not compare equal to
    itself, since [NaN == NaN] is false. *)
Lemma equality_not_reflexive_nan :
  static_vector_il 1 false [S754_zero false] [S754_nan] = Returns nan_vector
  ∧ well_formed 1 nan_vector
  ∧ op_eq SFeqb nan_vector nan_vector = Returns false.
Proof. repeat split; (reflexivity || (simpl; lia)). Qed.

(** *** The theorems at concrete inputs *)

Lemma swap_content_exchange_witness :
  ∃ h' a' b',
    swap two_objects 1 2 = Returns h'
    ∧ h' !! 1%nat = Some a' ∧ h' !! 2%nat = Some b'
    ∧ (∀ i : Z, 0 ≤ i < size a' →
         ∃ x, subscript a' i = Returns x ∧ subscript vec56 i = Returns x)
    ∧ (∀ i : Z, 0 ≤ i < size b' →
         ∃ x, subscript b' i = Returns x ∧ subscript vec123 i = Returns x)
    ∧ (∀ i : Z, 0 ≤ i < Z.max (size vec123) (size vec56) →
         ∃ x y, subscript vec123 i = Returns x ∧ subscript vec56 i = Returns y
              ∧ subscript a' i = Returns y ∧ subscript b' i = Returns x)
    ∧ (∀ i : Z, Z.max (size vec123) (size vec56) ≤ i →
         subscript a' i = subscript vec123 i ∧ subscript b' i = subscript vec56 i)
    ∧ size a' = size vec56 ∧ size b' = size vec123.
Proof.
  apply (swap_content_exchange 4 two_objects 1 2 vec123 vec56).
  - reflexivity.
  - reflexivity.
  - split; [simpl; lia | reflexivity].
  - split; [simpl; lia | reflexivity].
Defined.

Lemma swap_size_exchange_witness :
  ∃ h' a' b',
    swap two_objects 1 2 = Returns h'
    ∧ h' !! 1%nat = Some a' ∧ h' !! 2%nat = Some b'
    ∧ size a' = size vec56 ∧ size b' = size vec123.
Proof.
  apply (swap_size_exchange 4 two_objects 1 2 vec123 vec56).
  - reflexivity.
  - reflexivity.
  - split; [simpl; lia | reflexivity].
  - split; [simpl; lia | reflexivity].
Defined.

Lemma swap_involution_witness :
  ∃ h1 h2,
    swap two_objects 1 2 = Returns h1
    ∧ swap h1 1 2 = Returns h2
    ∧ h2 !! 1%nat = Some vec123 ∧ h2 !! 2%nat = Some vec56
    ∧ h2 = two_objects.
Proof.
  apply (swap_involution 4 two_objects 1 2 vec123 vec56).
  - reflexivity.
  - reflexivity.
  - split; [simpl; lia | reflexivity].
  - split; [simpl; lia | reflexivity].
Defined.

Lemma equality_semantics_witness :
  ∃ r, op_eq Z.eqb vec123 vec56 = Returns r
     ∧ (r = true ↔
          size vec123 = size vec56
          ∧ ∀ i : Z, 0 ≤ i < size vec123 →
              ∃ x y, subscript vec123 i = Returns x ∧ subscript vec56 i = Returns y
                   ∧ Z.eqb x y = true)
     ∧ op_ne Z.eqb vec123 vec56 = Returns (negb r)
     ∧ ((∀ x : Z, Z.eqb x x = true) → op_eq Z.eqb vec123 vec123 = Returns true)
     ∧ ((∀ x y : Z, Z.eqb x y = Z.eqb y x) → op_eq Z.eqb vec56 vec123 = Returns r).
Proof.
  apply (equality_semantics 4 Z.eqb vec123 vec56).
  - split; [simpl; lia | reflexivity].
  - split; [simpl; lia | reflexivity].
Defined.

Lemma equality_ignores_dead_slots_witness :
  vec123 ≠ vec123' ∧ op_eq Z.eqb vec123 vec56 = op_eq Z.eqb vec123' vec56.
Proof.
  split; [discriminate |].
  apply (equality_ignores_dead_slots Z.eqb vec123 vec123' vec56).
  - reflexivity.
  - intros i Hi. change (size vec123) with 3 in Hi.
    assert (i = 0 ∨ i = 1 ∨ i = 2) as [-> | [-> | ->]] by lia; reflexivity.
Defined.

Lemma fill_correct_witness :
  ∃ this', fill vec123 9 = Returns this'
    ∧ size this' = size vec123
    ∧ (∀ i : Z, 0 ≤ i < size this' → subscript this' i = Returns 9)
    ∧ (size vec123 = 0 → this' = vec123).
Proof.
  apply (fill_correct 4 vec123 9).
  split; [simpl; lia | reflexivity].
Defined.

Lemma construct_from_list_witness :
  ∃ this, static_vector_il 4 false raw_storage [1; 2; 3] = Returns this
    ∧ size this = Z.of_nat (length [1; 2; 3])
    ∧ ∀ i : Z, 0 ≤ i < Z.of_nat (length [1; 2; 3]) →
        ∃ x, [1; 2; 3] !! Z.to_nat i = Some x ∧ subscript this i = Returns x.
Proof.
  apply (construct_from_list 4 false raw_storage [1; 2; 3]).
  - reflexivity.
  - simpl. lia.
Defined.

Lemma capacity_invariant_witness :
  size {| size_ := 2; data_ := [5; 6; 0; 13] |}
    ≤ max_size 4 {| size_ := 2; data_ := [5; 6; 0; 13] |}
  ∧ max_size 4 {| size_ := 2; data_ := [5; 6; 0; 13] |} = 4.
Proof.
  apply (capacity_invariant 4 false scenario_store 1).
  - lia.
  - apply (run_reachable 4 false scenario_program ∅).
    + apply reachable_empty.
    + repeat constructor; simpl; lia.
    + reflexivity.
  - reflexivity.
Defined.

Lemma sized_value_constructor_witness :
  ∃ this, static_vector_sized_value 4 false raw_storage 2 7 = Returns this
    ∧ size this = 2
    ∧ (∀ i : Z, 0 ≤ i < 2 → subscript this i = Returns 7)
    ∧ (∀ i : Z, 2 ≤ i → slot (data_ this) i = slot raw_storage i).
Proof.
  apply (sized_value_constructor 4 false raw_storage 2 7).
  - reflexivity.
  - lia.
Defined.

Lemma oversized_construction_aborts_witness :
  static_vector_sized 4 false raw_storage 5 = AssertFails
  ∧ static_vector_sized_value 4 false raw_storage 5 0 = AssertFails
  ∧ static_vector_il 4 false raw_storage [1; 2; 3; 4; 5] = AssertFails.
Proof.
  apply (oversized_construction_aborts 4 raw_storage 5 0 [1; 2; 3; 4; 5]).
  - lia.
  - reflexivity.
Defined.

Lemma oversized_construction_unchecked_witness :
  (∃ this, static_vector_sized 4 true raw_storage 5 = Returns this
         ∧ size this = 5 ∧ ¬ well_formed 4 this)
  ∧ static_vector_sized_value 4 true raw_storage 5 0 = Undefined
  ∧ static_vector_il 4 true raw_storage [1; 2; 3; 4; 5] = Undefined.
Proof.
  apply (oversized_construction_unchecked 4 raw_storage 5 0 [1; 2; 3; 4; 5]).
  - reflexivity.
  - lia.
  - reflexivity.
Defined.

Lemma subscript_assign_read_witness :
  ∃ v', subscript_assign vec123 1 8 = Returns v'
    ∧ size v' = size vec123
    ∧ subscript v' 1 = Returns 8
    ∧ ∀ pos' : Z, pos' ≠ 1 → subscript v' pos' = subscript vec123 pos'.
Proof.
  apply (subscript_assign_read vec123 1 8).
  simpl. lia.
Defined.

Lemma front_back_of_list_witness :
  ∃ this, static_vector_il 4 false raw_storage [1; 2; 3] = Returns this
    ∧ front this = Returns 1 ∧ at_ this 0 = Returns 1
    ∧ back this = Returns 3 ∧ at_ this (size this - 1) = Returns 3.
Proof.
  apply (front_back_of_list 4 false raw_storage [1; 2; 3] 1 3).
  - reflexivity.
  - reflexivity.
  - simpl. lia.
  - reflexivity.
  - reflexivity.
Defined.

Lemma back_of_empty_undefined_witness :
  back (static_vector_default raw_storage) = Undefined.
Proof.
  apply (back_of_empty_undefined (static_vector_default raw_storage)).
  - reflexivity.
  - reflexivity.
Defined.

Lemma empty_vectors_equal_witness :
  op_eq Z.eqb (static_vector_default raw_storage) {| size_ := 0; data_ := [9; 9; 9; 9] |}
    = Returns true
  ∧ op_ne Z.eqb (static_vector_default raw_storage) {| size_ := 0; data_ := [9; 9; 9; 9] |}
    = Returns false.
Proof.
  apply (empty_vectors_equal Z.eqb (static_vector_default raw_storage)
           {| size_ := 0; data_ := [9; 9; 9; 9] |}).
  - reflexivity.
  - reflexivity.
Defined.

Lemma different_sizes_unequal_witness :
  op_eq Z.eqb vec123 vec56 = Returns false ∧ op_ne Z.eqb vec123 vec56 = Returns true.
Proof.
  apply (different_sizes_unequal Z.eqb vec123 vec56).
  - simpl. lia.
  - simpl. lia.
  - discriminate.
Defined.

Lemma dead_write_keeps_equality_witness :
  op_eq Z.eqb vec123' vec56 = op_eq Z.eqb vec123 vec56
  ∧ op_eq Z.eqb vec56 vec123' = op_eq Z.eqb vec56 vec123.
Proof.
  apply (dead_write_keeps_equality Z.eqb vec123 3 99 vec123' vec56).
  - simpl. lia.
  - reflexivity.
Defined.

Lemma live_write_breaks_equality_witness :
  ∃ a', subscript_assign vec123 1 8 = Returns a'
      ∧ op_eq Z.eqb a' vec123 = Returns false
      ∧ op_ne Z.eqb a' vec123 = Returns true.
Proof.
  apply (live_write_breaks_equality 4 Z.eqb vec123 vec123 1 8 2).
  - split; [simpl; lia | reflexivity].
  - split; [simpl; lia | reflexivity].
  - simpl. lia.
  - reflexivity.
  - reflexivity.
Defined.

Lemma list_constructor_equality_witness :
  ∃ a b r,
    static_vector_il 4 false raw_storage [1; 2; 3] = Returns a
    ∧ static_vector_il 4 false [0; 0; 0; 0] [1; 2; 3] = Returns b
    ∧ op_eq Z.eqb a b = Returns r
    ∧ (r = true ↔ Forall2 (λ x y, Z.eqb x y = true) [1; 2; 3] [1; 2; 3]).
Proof.
  apply (list_constructor_equality 4 Z.eqb false raw_storage [0; 0; 0; 0]
           [1; 2; 3] [1; 2; 3]).
  - reflexivity.
  - reflexivity.
  - simpl. lia.
  - simpl. lia.
Defined.

Lemma fill_overwrites_witness :
  ∃ v1 v2, fill vec123 7 = Returns v1 ∧ fill v1 9 = Returns v2
         ∧ fill vec123 9 = Returns v2.
Proof.
  apply (fill_overwrites 4 vec123 7 9).
  split; [simpl; lia | reflexivity].
Defined.

Lemma self_swap_is_noop_witness :
  swap two_objects 1 1 = Returns two_objects
  ∧ std_swap two_objects 1 1 = Returns two_objects.
Proof.
  apply (self_swap_is_noop 4 two_objects 1 vec123).
  - reflexivity.
  - split; [simpl; lia | reflexivity].
Defined.

Lemma swap_commutes_witness :
  std_swap two_objects 1 2 = std_swap two_objects 2 1.
Proof.
  apply (swap_commutes 4 two_objects 1 2 vec123 vec56).
  - reflexivity.
  - reflexivity.
  - split; [simpl; lia | reflexivity].
  - split; [simpl; lia | reflexivity].
Defined.

Lemma swap_exchanges_equality_witness :
  ∃ h' a' b',
    swap two_objects 1 2 = Returns h'
    ∧ h' !! 1%nat = Some a' ∧ h' !! 2%nat = Some b'
    ∧ ∀ c, op_eq Z.eqb a' c = op_eq Z.eqb vec56 c
         ∧ op_eq Z.eqb c a' = op_eq Z.eqb c vec56
         ∧ op_eq Z.eqb b' c = op_eq Z.eqb vec123 c
         ∧ op_eq Z.eqb c b' = op_eq Z.eqb c vec123.
Proof.
  apply (swap_exchanges_equality 4 Z.eqb two_objects 1 2 vec123 vec56).
  - reflexivity.
  - reflexivity.
  - split; [simpl; lia | reflexivity].
  - split; [simpl; lia | reflexivity].
Defined.
